(** * Scheduler node-info snapshot (pkg/scheduler/nodeinfo/snapshot/snapshot.go)

    A shallow embedding of the scheduler's [Snapshot] type, its two
    constructors and its query facades, with the properties the design
    document states about them.

    Conventions of the embedding.
    - A Go slice is a [slice.t]: its elements and its capacity.  [append]
      keeps the capacity while there is room and grows it otherwise.
    - A Go map is a [gmap].  Go leaves the order in which [range] visits a
      map unspecified, so every function with a loop over a map takes, for
      each such loop, a [ranger]: the sequence of entries the loop visits,
      for each map.  [range_ok r] says that [r] is one Go may follow: it
      visits each entry of the map exactly once.
    - [*NodeInfo] and [*v1.Pod] are modelled by the records they point to,
      and a selector by the record of its method: receivers, the pointers
      that maps and slices hold and the interface values that callers pass
      are not nil.
      A [*v1.Node] that the code tests against nil is an [option].
    - A pod filter and a selector's [Matches] are functions: they have no
      effect besides their result.
    - [int64] is [Z]; [int] counters that only add lengths are [nat]. *)

From Stdlib Require Import ZArith.
From stdpp Require Import gmap strings list fin_maps.

(** ** Slices *)

Module slice.

Record t (A : Type) : Type := mk { elems : list A; cap : nat }.
Arguments mk {A} _ _.
Arguments elems {A} _.
Arguments cap {A} _.

(** The zero value of a slice type. *)
Definition nil {A : Type} : t A := mk [] 0.

(** [make([]T, 0, c)] *)
Definition make {A : Type} (c : nat) : t A := mk [] c.

(** [len(s)] *)
Definition len {A : Type} (s : t A) : nat := length (elems s).

(** Capacity chosen when [append] has to reallocate: doubling, or the
    needed length when doubling is not enough.  The runtime rounds this
    further to its allocation sizes; the properties below use only the
    elements of a slice and the case in which there is room. *)
Definition growcap (old needed : nat) : nat :=
    if needed <=? 2 * old then 2 * old else needed.

(** [append(s, x)] *)
Definition append {A : Type} (s : t A) (x : A) : t A :=
    mk (elems s ++ [x])
     (if len s <? cap s then cap s else growcap (cap s) (S (len s))).

End slice.

(** ** Collaborating packages *)

(** k8s.io/api/core/v1: the fields of pods and nodes that the snapshot and
    its construction read. *)
Module v1.

Record Pod : Type := mkPod {
  PodName : string;
  NodeName : string;             (* pod.Spec.NodeName *)
  Labels : gmap string string;   (* pod.Labels *)
  Affinity : bool                (* the pod declares affinity terms *)
}.

Record Node : Type := mkNode { Name : string }.

End v1.

(** k8s.io/apimachinery/pkg/labels: a selector is an interface value, here the
    record of its one method used by the snapshot. *)
Module labels.

Record Selector : Type := mkSelector {
  Matches : gmap string string → bool
}.

End labels.

(** k8s.io/kubernetes/pkg/scheduler/listers *)
Module schedulerlisters.

Definition PodFilter : Type := v1.Pod → bool.

End schedulerlisters.

(** k8s.io/kubernetes/pkg/scheduler/nodeinfo *)
Module schedulernodeinfo.

(** Modelled from the spec: the [NodeInfo] struct, whose declaration is not
    part of snapshot.go.  "Node aggregate: identity (name), optional
    underlying node descriptor, ordered collection of assigned pods,
    derived has-affinity-pods information". *)
Record NodeInfo : Type := mkNodeInfo {
  name : string;
  node : option v1.Node;
  pods : list v1.Pod;
  podsWithAffinity : list v1.Pod
}.

(** Modelled from the spec: the accessors [Node()], [Pods()] and
    [PodsWithAffinity()] that snapshot.go calls. *)
Definition Node (n : NodeInfo) : option v1.Node := node n.
Definition Pods (n : NodeInfo) : list v1.Pod := pods n.
Definition PodsWithAffinity (n : NodeInfo) : list v1.Pod :=
  podsWithAffinity n.

(** Modelled from the spec: a fresh aggregate for a node name, with no
    descriptor and no pods. *)
Definition NewNodeInfo (nm : string) : NodeInfo :=
  mkNodeInfo nm None [] [].

(** Modelled from the spec: a pod joins the aggregate's pods, and its
    affinity pods when it declares affinity terms. *)
Definition AddPod (n : NodeInfo) (pod : v1.Pod) : NodeInfo :=
  mkNodeInfo (name n) (node n) (pods n ++ [pod])
    (if v1.Affinity pod then podsWithAffinity n ++ [pod]
     else podsWithAffinity n).

(** Modelled from the spec: the aggregate receives its node descriptor. *)
Definition SetNode (n : NodeInfo) (nd : v1.Node) : NodeInfo :=
  mkNodeInfo (name n) (Some nd) (pods n) (podsWithAffinity n).

(** What becomes of a pod assigned to a node name that the nodes collection
    does not have.  The design leaves the choice to the implementer; both
    choices are modelled. *)
Inductive OrphanPolicy : Type := Synthesize | Drop.

(** Modelled from the spec: the entry for a node of the nodes collection. *)
Definition addNode (m : gmap string NodeInfo) (nd : v1.Node)
  : gmap string NodeInfo :=
  let n := default (NewNodeInfo (v1.Name nd)) (m !! v1.Name nd) in
  <[v1.Name nd := SetNode n nd]> m.

(** Modelled from the spec: a pod joins the entry of the node name it is
    assigned to; [policy] decides when there is no such entry. *)
Definition addPod (policy : OrphanPolicy) (m : gmap string NodeInfo)
    (pod : v1.Pod) : gmap string NodeInfo :=
  match m !! v1.NodeName pod with
  | Some n => <[v1.NodeName pod := AddPod n pod]> m
  | None =>
      match policy with
      | Synthesize =>
          <[v1.NodeName pod := AddPod (NewNodeInfo (v1.NodeName pod)) pod]> m
      | Drop => m
      end
  end.

(** Modelled from the spec: [CreateNodeNameToInfoMap], which is not part of
    snapshot.go.  "One entry per distinct node name referenced by the input
    (at minimum every node in the nodes collection), each entry aggregating
    all pods whose assignment matches that name." *)
Definition CreateNodeNameToInfoMap (policy : OrphanPolicy)
    (pods : list v1.Pod) (nodes : list v1.Node) : gmap string NodeInfo :=
  fold_left (addPod policy) pods (fold_left addNode nodes ∅).

End schedulernodeinfo.

(** ** Iteration over a map *)

(** The entries of a [map[string]*NodeInfo], in some sequence. *)
Abbreviation entries := (list (string * schedulernodeinfo.NodeInfo)).

(** How one [range] statement visits a map. *)
Definition ranger : Type := gmap string schedulernodeinfo.NodeInfo → entries.

(** [r] visits each entry of the map it is given exactly once. *)
Definition range_ok (r : ranger) : Prop := ∀ m, r m ≡ₚ map_to_list m.

(** ** Errors *)

(** The value of [fmt.Errorf(format, args...)]: the format and its
    arguments, not rendered. *)
Inductive error : Type :=
| Errorf (format : string) (args : list string).

(** ** The snapshot *)

Record Snapshot : Type := mkSnapshot {
  NodeInfoMap : gmap string schedulernodeinfo.NodeInfo;
  NodeInfoList : slice.t schedulernodeinfo.NodeInfo;
  HavePodsWithAffinityNodeInfoList : slice.t schedulernodeinfo.NodeInfo;
  Generation : Z
}.

(** [NewEmptySnapshot]: only [NodeInfoMap] is given; the other fields keep
    their zero values. *)
Definition NewEmptySnapshot : Snapshot :=
  {| NodeInfoMap := ∅;
     NodeInfoList := slice.nil;
     HavePodsWithAffinityNodeInfoList := slice.nil;
     Generation := 0 |}.

(** The two lists that the loop of [NewSnapshot] builds. *)
Abbreviation lists :=
  (slice.t schedulernodeinfo.NodeInfo
   * slice.t schedulernodeinfo.NodeInfo)%type.

(** The body of the loop of [NewSnapshot] for one map entry: [acc.1] is
    [nodeInfoList], [acc.2] is [havePodsWithAffinityNodeInfoList]. *)
Definition NewSnapshot_step (acc : lists)
    (kv : string * schedulernodeinfo.NodeInfo) : lists :=
  let v := kv.2 in
  let nodeInfoList := slice.append acc.1 v in
  if 0 <? length (schedulernodeinfo.PodsWithAffinity v)
  then (nodeInfoList, slice.append acc.2 v)
  else (nodeInfoList, acc.2).

(** [NewSnapshot(pods, nodes)], its loop visiting the map as [r] says. *)
Definition NewSnapshot (policy : schedulernodeinfo.OrphanPolicy) (r : ranger)
    (pods : list v1.Pod) (nodes : list v1.Node) : Snapshot :=
  let nodeInfoMap :=
    schedulernodeinfo.CreateNodeNameToInfoMap policy pods nodes in
  let built :=
    fold_left NewSnapshot_step (r nodeInfoMap)
      (slice.make (length nodes), slice.make (length nodes)) in
  let s := NewEmptySnapshot in
  {| NodeInfoMap := nodeInfoMap;
     NodeInfoList := built.1;
     HavePodsWithAffinityNodeInfoList := built.2;
     Generation := Generation s |}.

(** [Snapshot.ListNodes] *)
Definition ListNodes (s : Snapshot) : slice.t v1.Node :=
  fold_left
    (λ nodes n,
       match schedulernodeinfo.Node n with
       | Some nd => slice.append nodes nd
       | None => nodes
       end)
    (slice.elems (NodeInfoList s))
    (slice.make (size (NodeInfoMap s))).

(** ** The pod-query facade *)

Module podLister.

Record t : Type := mk { snapshot : Snapshot }.

(** The first loop of [FilteredList]: the capacity to allocate. *)
Definition maxSize (order : entries) : nat :=
  fold_left (λ maxSize kn, maxSize + length (schedulernodeinfo.Pods kn.2))
    order 0.

(** The test of the inner loop of [FilteredList]. *)
Definition accepts (podFilter : schedulerlisters.PodFilter)
    (selector : labels.Selector) (pod : v1.Pod) : bool :=
  podFilter pod && labels.Matches selector (v1.Labels pod).

(** The second loop of [FilteredList], from the buffer [pods]. *)
Definition collect (podFilter : schedulerlisters.PodFilter)
    (selector : labels.Selector) (order : entries) (pods : slice.t v1.Pod)
  : slice.t v1.Pod :=
  fold_left
    (λ pods kn,
       fold_left
         (λ pods pod,
            if accepts podFilter selector pod
            then slice.append pods pod
            else pods)
         (schedulernodeinfo.Pods kn.2) pods)
    order pods.

(** [podLister.FilteredList]; [r1] and [r2] say how its first and its second
    loop visit [NodeInfoMap]. *)
Definition FilteredList (p : t) (r1 r2 : ranger)
    (podFilter : schedulerlisters.PodFilter) (selector : labels.Selector)
  : slice.t v1.Pod * option error :=
  let maxSize := maxSize (r1 (NodeInfoMap (snapshot p))) in
  let pods := slice.make maxSize in
  (collect podFilter selector (r2 (NodeInfoMap (snapshot p))) pods, None).

(** [podLister.List] *)
Definition List (p : t) (r1 r2 : ranger) (selector : labels.Selector)
  : slice.t v1.Pod * option error :=
  let alwaysTrue : schedulerlisters.PodFilter := λ _, true in
  FilteredList p r1 r2 alwaysTrue selector.

End podLister.

(** ** The node-query facade *)

Module nodeInfoLister.

Record t : Type := mk { snapshot : Snapshot }.

(** [nodeInfoLister.List] *)
Definition List (n : t) : slice.t schedulernodeinfo.NodeInfo * option error :=
  (NodeInfoList (snapshot n), None).

(** [nodeInfoLister.HavePodsWithAffinityList] *)
Definition HavePodsWithAffinityList (n : t)
  : slice.t schedulernodeinfo.NodeInfo * option error :=
  (HavePodsWithAffinityNodeInfoList (snapshot n), None).

(** [nodeInfoLister.Get]; a nil [*NodeInfo] result is [None].  The map
    holds no nil pointer here, so the result of a successful lookup is never
    nil; a nil pointer stored in the map, which the code would return with
    a nil error, is not modelled. *)
Definition Get (n : t) (nodeName : string)
  : option schedulernodeinfo.NodeInfo * option error :=
  match NodeInfoMap (snapshot n) !! nodeName with
  | Some v => (Some v, None)
  | None =>
      (None, Some (Errorf "nodeinfo not found for node name %q" [nodeName]))
  end.

End nodeInfoLister.

(** [Snapshot.Pods] and [Snapshot.NodeInfos] *)
Definition Pods (s : Snapshot) : podLister.t := podLister.mk s.
Definition NodeInfos (s : Snapshot) : nodeInfoLister.t := nodeInfoLister.mk s.

(** ** The operations as calls on a snapshot

    Every method has a pointer receiver and could write to the snapshot it
    is called on.  [call] runs one operation and returns, with its result,
    the snapshot as the operation leaves it. *)

Inductive Call : Type :=
| CallListNodes
| CallPodsList (r1 r2 : ranger) (selector : labels.Selector)
| CallPodsFilteredList (r1 r2 : ranger)
    (podFilter : schedulerlisters.PodFilter) (selector : labels.Selector)
| CallNodeInfosList
| CallNodeInfosHavePodsWithAffinityList
| CallNodeInfosGet (nodeName : string).

Inductive Reply : Type :=
| ReplyNodes (nodes : slice.t v1.Node)
| ReplyPods (res : slice.t v1.Pod * option error)
| ReplyNodeInfos (res : slice.t schedulernodeinfo.NodeInfo * option error)
| ReplyNodeInfo (res : option schedulernodeinfo.NodeInfo * option error).

Definition call (c : Call) (s : Snapshot) : Reply * Snapshot :=
  match c with
  | CallListNodes => (ReplyNodes (ListNodes s), s)
  | CallPodsList r1 r2 selector =>
      (ReplyPods (podLister.List (Pods s) r1 r2 selector), s)
  | CallPodsFilteredList r1 r2 podFilter selector =>
      (ReplyPods (podLister.FilteredList (Pods s) r1 r2 podFilter selector),
       s)
  | CallNodeInfosList => (ReplyNodeInfos (nodeInfoLister.List (NodeInfos s)), s)
  | CallNodeInfosHavePodsWithAffinityList =>
      (ReplyNodeInfos (nodeInfoLister.HavePodsWithAffinityList (NodeInfos s)),
       s)
  | CallNodeInfosGet nodeName =>
      (ReplyNodeInfo (nodeInfoLister.Get (NodeInfos s) nodeName), s)
  end.

(** A sequence of calls, each on the snapshot the previous one left. *)
Fixpoint calls (cs : list Call) (s : Snapshot) : list Reply * Snapshot :=
  match cs with
  | [] => ([], s)
  | c :: cs' =>
      let '(r, s') := call c s in
      let '(rs, s'') := calls cs' s' in
      (r :: rs, s'')
  end.

(** The error channel of a reply; [ListNodes] has none. *)
Definition reply_error (r : Reply) : option error :=
  match r with
  | ReplyNodes _ => None
  | ReplyPods res => res.2
  | ReplyNodeInfos res => res.2
  | ReplyNodeInfo res => res.2
  end.

(** ** Notions of the design document

    What the properties are stated against; none of them is used by the
    code above. *)

(** The pod passes both the predicate and the selector. *)
Definition satisfies (podFilter : schedulerlisters.PodFilter)
    (selector : labels.Selector) (pod : v1.Pod) : Prop :=
  podFilter pod = true ∧ labels.Matches selector (v1.Labels pod) = true.

(** The affinity flag of a node aggregate: it has pods with affinity terms. *)
Definition affinityFlag (n : schedulernodeinfo.NodeInfo) : Prop :=
  schedulernodeinfo.PodsWithAffinity n ≠ [].

(** The identities of a sequence of node aggregates. *)
Definition identities (l : list schedulernodeinfo.NodeInfo) : list string :=
  schedulernodeinfo.name <$> l.

(** The aggregate stored for a name carries that name. *)
Definition named (m : gmap string schedulernodeinfo.NodeInfo) : Prop :=
  ∀ k v, m !! k = Some v → schedulernodeinfo.name v = k.

(** What the inner loop of [FilteredList] appends for one pod. *)
Definition kept (podFilter : schedulerlisters.PodFilter)
    (selector : labels.Selector) (pod : v1.Pod) : list v1.Pod :=
  if podLister.accepts podFilter selector pod then [pod] else [].

(** The pods that pass both tests, node after node in the order of the
    loop, each node's pods in the order of its pod list. *)
Definition passing (podFilter : schedulerlisters.PodFilter)
    (selector : labels.Selector) (order : entries) : list v1.Pod :=
  order ≫= λ kn, filter (satisfies podFilter selector)
                   (schedulernodeinfo.Pods kn.2).

(** The pods of all node aggregates of the snapshot's index, entry after
    entry. *)
Definition allPods (s : Snapshot) : list v1.Pod :=
  map_to_list (NodeInfoMap s) ≫= λ kn, schedulernodeinfo.Pods kn.2.

(** The sum of the pod counts of all node aggregates of the index. *)
Definition podCount (s : Snapshot) : nat :=
  sum_list_with (λ kn : string * schedulernodeinfo.NodeInfo,
                   length (schedulernodeinfo.Pods kn.2))
    (map_to_list (NodeInfoMap s)).

(** ** The scenario of the design document

    Nodes A and B; pods p1 and p3 on A with label app=x, pod p2 on B with
    label app=y and affinity terms. *)

Module scenario.

Definition A : v1.Node := v1.mkNode "A".
Definition B : v1.Node := v1.mkNode "B".
Definition p1 : v1.Pod := v1.mkPod "p1" "A" {["app" := "x"]} false.
Definition p2 : v1.Pod := v1.mkPod "p2" "B" {["app" := "y"]} true.
Definition p3 : v1.Pod := v1.mkPod "p3" "A" {["app" := "x"]} false.

Definition nodes : list v1.Node := [A; B].
Definition pods : list v1.Pod := [p1; p2; p3].

(** The aggregates the construction is expected to produce. *)
Definition infoA : schedulernodeinfo.NodeInfo :=
  schedulernodeinfo.mkNodeInfo "A" (Some A) [p1; p3] [].
Definition infoB : schedulernodeinfo.NodeInfo :=
  schedulernodeinfo.mkNodeInfo "B" (Some B) [p2] [p2].

(** Two ways in which [range] may visit a map; on the map of the scenario
    the first visits A then B, the second B then A; on the map of the later
    capture below the first visits C, A, B. *)
Definition forwards : ranger := map_to_list.
Definition backwards : ranger := λ m, reverse (map_to_list m).

(** The selector app=x. *)
Definition appX : labels.Selector :=
  labels.mkSelector (λ ls, bool_decide (ls !! "app" = Some "x")).

(** The selector that matches every label set. *)
Definition everything : labels.Selector := labels.mkSelector (λ _, true).

Definition snapshot : Snapshot :=
  NewSnapshot schedulernodeinfo.Synthesize backwards pods nodes.

(** A later capture: one more pod, assigned to a node C that the nodes
    collection does not have. *)
Definition p4 : v1.Pod := v1.mkPod "p4" "C" ∅ false.
Definition infoC : schedulernodeinfo.NodeInfo :=
  schedulernodeinfo.mkNodeInfo "C" None [p4] [].
Definition later : Snapshot :=
  NewSnapshot schedulernodeinfo.Synthesize forwards (pods ++ [p4]) nodes.

End scenario.


(** * Properties *)

(** ** Rangers *)

Lemma range_ok_forwards : range_ok scenario.forwards.
Proof. intros m. reflexivity. Qed.

Lemma range_ok_backwards : range_ok scenario.backwards.
Proof. intros m. apply reverse_Permutation. Qed.

Lemma range_ok_empty (r : ranger) : range_ok r → r ∅ = [].
Proof.
  intros Hr. apply Permutation_nil_r.
  by rewrite (Hr ∅), map_to_list_empty.
Qed.

(** ** Slices and the loops that fill them *)

Section slices.
Context {A : Type}.
Implicit Types (s : slice.t A) (x : A).

Lemma elems_make c : slice.elems (@slice.make A c) = [].
Proof. reflexivity. Qed.

Lemma elems_append s x :
  slice.elems (slice.append s x) = slice.elems s ++ [x].
Proof. reflexivity. Qed.

Lemma cap_append_room s x :
  slice.len s < slice.cap s → slice.cap (slice.append s x) = slice.cap s.
Proof.
  intros Hroom. unfold slice.append; simpl.
  by apply Nat.ltb_lt in Hroom as ->.
Qed.

(** A loop whose body appends to the slice the elements [sel b] chosen for
    the item [b] it visits appends, over a sequence of items, the chosen
    elements of all of them in turn. *)
Lemma elems_loop {B : Type} (body : slice.t A → B → slice.t A)
    (sel : B → list A) (l : list B) s :
  (∀ s' b, slice.elems (body s' b) = slice.elems s' ++ sel b) →
  slice.elems (fold_left body l s) = slice.elems s ++ (l ≫= sel).
Proof.
  intros Hbody. revert s.
  induction l as [|b l IH]; intros s; cbn [fold_left].
  - by rewrite app_nil_r.
  - by rewrite IH, Hbody, bind_cons, (assoc_L (++)).
Qed.

(** Such a loop keeps the capacity it starts with when everything it
    appends fits. *)
Lemma cap_loop {B : Type} (body : slice.t A → B → slice.t A)
    (sel : B → list A) (l : list B) s :
  (∀ s' b, slice.elems (body s' b) = slice.elems s' ++ sel b) →
  (∀ s' b, slice.len s' + length (sel b) ≤ slice.cap s' →
           slice.cap (body s' b) = slice.cap s') →
  slice.len s + length (l ≫= sel) ≤ slice.cap s →
  slice.cap (fold_left body l s) = slice.cap s.
Proof.
  intros Helems Hcap. revert s.
  induction l as [|b l IH]; intros s Hfit; cbn [fold_left]; [done|].
  rewrite bind_cons, length_app in Hfit.
  rewrite IH.
  - apply Hcap. lia.
  - unfold slice.len in *. rewrite Helems, length_app, Hcap; [lia|].
    unfold slice.len. lia.
Qed.

End slices.

(** ** The loops of [FilteredList] *)

Section filtering.
Variables (podFilter : schedulerlisters.PodFilter) (selector : labels.Selector).

Lemma accepts_satisfies pod :
  podLister.accepts podFilter selector pod = true
  ↔ satisfies podFilter selector pod.
Proof. unfold podLister.accepts, satisfies. apply andb_true_iff. Qed.

Lemma bind_kept (l : list v1.Pod) :
  l ≫= kept podFilter selector = filter (satisfies podFilter selector) l.
Proof.
  induction l as [|pod l IH]; [done|].
  rewrite bind_cons, filter_cons, IH. unfold kept.
  destruct (podLister.accepts podFilter selector pod) eqn:Hacc.
  - rewrite decide_True; [done|]. by apply accepts_satisfies.
  - rewrite decide_False; [done|].
    rewrite <-accepts_satisfies. congruence.
Qed.

(** The body of the inner loop appends what [kept] says. *)
Lemma inner_body_elems (s : slice.t v1.Pod) pod :
  slice.elems (if podLister.accepts podFilter selector pod
               then slice.append s pod else s)
  = slice.elems s ++ kept podFilter selector pod.
Proof.
  unfold kept. destruct (podLister.accepts _ _ _); simpl; [done|].
  by rewrite app_nil_r.
Qed.

Lemma collect_elems (order : entries) (pods : slice.t v1.Pod) :
  slice.elems (podLister.collect podFilter selector order pods)
  = slice.elems pods ++ passing podFilter selector order.
Proof.
  unfold podLister.collect, passing.
  apply elems_loop. intros s' kn.
  rewrite <-bind_kept. apply elems_loop, inner_body_elems.
Qed.

Lemma collect_cap (order : entries) (pods : slice.t v1.Pod) :
  slice.len pods + length (passing podFilter selector order)
  ≤ slice.cap pods →
  slice.cap (podLister.collect podFilter selector order pods)
  = slice.cap pods.
Proof.
  unfold podLister.collect, passing. apply cap_loop.
  - intros s' kn. rewrite <-bind_kept. apply elems_loop, inner_body_elems.
  - intros s' kn. rewrite <-bind_kept.
    apply cap_loop; [apply inner_body_elems|].
    intros s'' pod. unfold kept.
    destruct (podLister.accepts _ _ _); [|done].
    intros Hfit. apply cap_append_room. simpl in Hfit. lia.
Qed.

Lemma filter_bind_pods (order : entries) :
  filter (satisfies podFilter selector)
    (order ≫= λ kn, schedulernodeinfo.Pods kn.2)
  = passing podFilter selector order.
Proof.
  unfold passing. induction order as [|kn order IH]; [done|].
  by rewrite !bind_cons, filter_app, IH.
Qed.

Lemma passing_length (order : entries) :
  length (passing podFilter selector order)
  ≤ sum_list_with (λ kn : string * schedulernodeinfo.NodeInfo,
                     length (schedulernodeinfo.Pods kn.2)) order.
Proof.
  unfold passing. induction order as [|kn order IH]; [done|].
  rewrite bind_cons, length_app. simpl.
  pose proof (length_filter (satisfies podFilter selector)
                (schedulernodeinfo.Pods kn.2)).
  lia.
Qed.

End filtering.

Lemma maxSize_sum (order : entries) :
  podLister.maxSize order
  = sum_list_with (λ kn : string * schedulernodeinfo.NodeInfo,
                     length (schedulernodeinfo.Pods kn.2)) order.
Proof.
  unfold podLister.maxSize.
  assert (H : ∀ acc,
    fold_left (λ maxSize (kn : string * schedulernodeinfo.NodeInfo),
                 maxSize + length (schedulernodeinfo.Pods kn.2)) order acc
    = acc + sum_list_with (λ kn : string * schedulernodeinfo.NodeInfo,
                             length (schedulernodeinfo.Pods kn.2)) order).
  { induction order as [|kn order IH]; intros acc; simpl; [lia|].
    rewrite IH. lia. }
  apply (H 0).
Qed.

Lemma maxSize_podCount (s : Snapshot) (r : ranger) :
  range_ok r → podLister.maxSize (r (NodeInfoMap s)) = podCount s.
Proof.
  unfold podCount. intros Hr.
  by rewrite maxSize_sum, (Hr (NodeInfoMap s)).
Qed.

(** ** The pod-query facade *)

(** C3.  For every snapshot, predicate and selector, [FilteredList] returns
    exactly the multiset of the pods of all node aggregates of the index
    that satisfy both the predicate and the selector: no such pod is
    missing, no other pod is included.  The result is the same whatever
    capacity the buffer starts with, and its length never exceeds the sum
    of the pod counts of all node aggregates, which is the capacity that
    is allocated and that the result still has. *)
Theorem FilteredList_exact (s : Snapshot) (r1 r2 : ranger)
    (podFilter : schedulerlisters.PodFilter) (selector : labels.Selector) :
  range_ok r1 → range_ok r2 →
  let res := (podLister.FilteredList (Pods s) r1 r2 podFilter selector).1 in
  slice.elems res ≡ₚ filter (satisfies podFilter selector) (allPods s)
  ∧ (∀ pod, pod ∈ slice.elems res
            ↔ (∃ k n, NodeInfoMap s !! k = Some n
                      ∧ pod ∈ schedulernodeinfo.Pods n)
              ∧ satisfies podFilter selector pod)
  ∧ (∀ c, slice.elems
            (podLister.collect podFilter selector (r2 (NodeInfoMap s))
               (slice.make c))
          = slice.elems res)
  ∧ slice.len res ≤ podCount s
  ∧ slice.cap res = podCount s.
Proof.
  intros Hr1 Hr2 res.
  assert (Hres : slice.elems res
                 = passing podFilter selector (r2 (NodeInfoMap s))).
  { unfold res, podLister.FilteredList; simpl. by rewrite collect_elems. }
  assert (Hperm : slice.elems res
                  ≡ₚ filter (satisfies podFilter selector) (allPods s)).
  { rewrite Hres, <-filter_bind_pods. unfold allPods.
    by rewrite (Hr2 (NodeInfoMap s)). }
  assert (Hlen : slice.len res ≤ podCount s).
  { unfold slice.len. rewrite Hres.
    etrans; [apply passing_length|].
    unfold podCount. by rewrite (Hr2 (NodeInfoMap s)). }
  split_and!; [done| |by intros c; rewrite collect_elems, Hres|done|].
  - intros pod. rewrite Hperm, list_elem_of_filter. unfold allPods.
    rewrite list_elem_of_bind. split.
    + intros [Hsat ([k n] & Hpod & Hkn)]. split; [|done].
      exists k, n. by apply elem_of_map_to_list in Hkn.
    + intros [(k & n & Hkn & Hpod) Hsat]. split; [done|].
      exists (k, n). by rewrite elem_of_map_to_list.
  - unfold res, podLister.FilteredList; simpl.
    rewrite collect_cap; simpl.
    + by apply maxSize_podCount.
    + rewrite (maxSize_podCount s r1 Hr1).
      unfold slice.len in Hlen. by rewrite Hres in Hlen.
Qed.

(** C10.  Whatever the order in which the second loop of [FilteredList]
    visits the nodes, the accepted pods of one node form one contiguous
    block of the result, between the pods of the nodes visited before it and
    those of the nodes visited after it, and inside the block they stand in
    the order of that node's pod list. *)
Theorem FilteredList_node_block (s : Snapshot) (r1 r2 : ranger)
    (podFilter : schedulerlisters.PodFilter) (selector : labels.Selector)
    (before after : entries) (k : string) (n : schedulernodeinfo.NodeInfo) :
  r2 (NodeInfoMap s) = before ++ (k, n) :: after →
  let block :=
    filter (satisfies podFilter selector) (schedulernodeinfo.Pods n) in
  slice.elems (podLister.FilteredList (Pods s) r1 r2 podFilter selector).1
  = passing podFilter selector before ++ block
    ++ passing podFilter selector after
  ∧ block `sublist_of` schedulernodeinfo.Pods n.
Proof.
  intros Hsplit block. split; [|apply sublist_filter].
  unfold podLister.FilteredList; simpl.
  rewrite collect_elems, Hsplit; simpl.
  unfold passing. by rewrite bind_app, bind_cons.
Qed.

(** C4.  [List] returns what [FilteredList] returns for the predicate that
    is always true and the same selector: the same pods in the same order
    and the same error; the pods are those whose labels the selector
    matches. *)
Theorem List_is_FilteredList_alwaysTrue (s : Snapshot) (r1 r2 : ranger)
    (selector : labels.Selector) :
  podLister.List (Pods s) r1 r2 selector
  = podLister.FilteredList (Pods s) r1 r2 (λ _, true) selector
  ∧ slice.elems (podLister.List (Pods s) r1 r2 selector).1
    = r2 (NodeInfoMap s) ≫= λ kn,
        filter (λ pod, labels.Matches selector (v1.Labels pod) = true)
          (schedulernodeinfo.Pods kn.2).
Proof.
  split; [reflexivity|].
  unfold podLister.List, podLister.FilteredList; simpl.
  rewrite collect_elems; simpl. unfold passing.
  apply list_bind_ext; [|done]. intros kn.
  apply list_filter_iff. intros pod. unfold satisfies. tauto.
Qed.

(** An empty index yields no pods. *)
Lemma FilteredList_empty (s : Snapshot) (r1 r2 : ranger)
    (podFilter : schedulerlisters.PodFilter) (selector : labels.Selector) :
  range_ok r2 → NodeInfoMap s = ∅ →
  slice.elems (podLister.FilteredList (Pods s) r1 r2 podFilter selector).1
  = [].
Proof.
  intros Hr2 Hempty. unfold podLister.FilteredList; simpl.
  by rewrite collect_elems, Hempty, (range_ok_empty r2 Hr2).
Qed.

(** ** Construction *)

(** The test of the loop of [NewSnapshot] is the affinity flag. *)
Lemma affinity_test (v : schedulernodeinfo.NodeInfo) :
  (0 <? length (schedulernodeinfo.PodsWithAffinity v)) = true
  ↔ affinityFlag v.
Proof.
  unfold affinityFlag. rewrite Nat.ltb_lt.
  destruct (schedulernodeinfo.PodsWithAffinity v); simpl; [|split; [done|lia]].
  split; [lia|done].
Qed.

(** The loop of [NewSnapshot] appends every visited aggregate to the first
    list, and to the second list those with pods with affinity terms. *)
Lemma NewSnapshot_loop (order : entries) (acc : lists) :
  slice.elems (fold_left NewSnapshot_step order acc).1
  = slice.elems acc.1 ++ order.*2
  ∧ slice.elems (fold_left NewSnapshot_step order acc).2
    = slice.elems acc.2 ++ filter affinityFlag (order.*2).
Proof.
  revert acc. induction order as [|[k v] order IH]; intros acc.
  - by rewrite !app_nil_r.
  - cbn [fold_left]. destruct (IH (NewSnapshot_step acc (k, v))) as [-> ->].
    unfold NewSnapshot_step; cbn [fst snd fmap list_fmap].
    rewrite filter_cons.
    destruct (decide (affinityFlag v)) as [Hv|Hv].
    + apply affinity_test in Hv as ->. cbn [fst snd].
      by rewrite !elems_append, <-!(assoc_L (++)).
    + rewrite <-affinity_test in Hv. apply not_true_is_false in Hv as ->.
      cbn [fst snd]. by rewrite !elems_append, <-!(assoc_L (++)).
Qed.

Lemma NewSnapshot_NodeInfoList policy r pods nodes :
  slice.elems (NodeInfoList (NewSnapshot policy r pods nodes))
  = (r (schedulernodeinfo.CreateNodeNameToInfoMap policy pods nodes)).*2.
Proof.
  unfold NewSnapshot; simpl. by rewrite (proj1 (NewSnapshot_loop _ _)).
Qed.

Lemma named_addNode m nd : named m → named (schedulernodeinfo.addNode m nd).
Proof.
  intros Hm k v. unfold schedulernodeinfo.addNode.
  rewrite lookup_insert. case_decide as Hk; [|by apply Hm].
  intros [= <-]; simpl. subst k.
  destruct (m !! v1.Name nd) as [n|] eqn:Hn; simpl; [|done].
  by apply Hm.
Qed.

Lemma named_addPod policy m pod :
  named m → named (schedulernodeinfo.addPod policy m pod).
Proof.
  intros Hm k v. unfold schedulernodeinfo.addPod.
  destruct (m !! v1.NodeName pod) as [n|] eqn:Hn.
  - rewrite lookup_insert. case_decide as Hk; [|by apply Hm].
    intros [= <-]; simpl. subst k. by apply Hm.
  - destruct policy; [|by apply Hm].
    rewrite lookup_insert. case_decide as Hk; [|by apply Hm].
    by intros [= <-].
Qed.

Lemma named_CreateNodeNameToInfoMap policy pods nodes :
  named (schedulernodeinfo.CreateNodeNameToInfoMap policy pods nodes).
Proof.
  unfold schedulernodeinfo.CreateNodeNameToInfoMap.
  assert (Hnodes : ∀ m, named m →
            named (fold_left schedulernodeinfo.addNode nodes m)).
  { induction nodes as [|nd nodes IH]; intros m Hm; [done|].
    apply IH, named_addNode, Hm. }
  assert (Hpods : ∀ m, named m →
            named (fold_left (schedulernodeinfo.addPod policy) pods m)).
  { induction pods as [|pod pods IH]; intros m Hm; [done|].
    apply IH, named_addPod, Hm. }
  apply Hpods, Hnodes. intros k v. by rewrite lookup_empty.
Qed.

(** The model of [CreateNodeNameToInfoMap] does what the design document
    says of it: the entry of a name has the last node of that name as its
    descriptor and aggregates, in their order, the pods assigned to the
    name; a name that only pods refer to has an entry, without descriptor,
    under [Synthesize] and none under [Drop]. *)
Lemma addNode_fold_lookup (nodes : list v1.Node) (k : string) :
  fold_left schedulernodeinfo.addNode nodes ∅ !! k
  = (λ nd, schedulernodeinfo.mkNodeInfo k (Some nd) [] [])
      <$> last (filter (λ nd, v1.Name nd = k) nodes).
Proof.
  induction nodes as [|nd nodes IH] using rev_ind; [done|].
  rewrite fold_left_app, filter_app; cbn [fold_left].
  unfold schedulernodeinfo.addNode at 1. rewrite lookup_insert.
  rewrite filter_cons, filter_nil. case_decide as Hk.
  - subst k. rewrite last_snoc, IH; simpl.
    by destruct (last _).
  - by rewrite app_nil_r.
Qed.

Lemma addPod_fold_lookup (policy : schedulernodeinfo.OrphanPolicy)
    (pods : list v1.Pod) (m0 : gmap string schedulernodeinfo.NodeInfo)
    (k : string) :
  let mine := filter (λ pod, v1.NodeName pod = k) pods in
  let affine := filter (λ pod, v1.Affinity pod = true) mine in
  fold_left (schedulernodeinfo.addPod policy) pods m0 !! k
  = match m0 !! k with
    | Some v =>
        Some (schedulernodeinfo.mkNodeInfo
                (schedulernodeinfo.name v) (schedulernodeinfo.node v)
                (schedulernodeinfo.pods v ++ mine)
                (schedulernodeinfo.podsWithAffinity v ++ affine))
    | None =>
        match policy with
        | schedulernodeinfo.Synthesize =>
            if decide (mine = []) then None
            else Some (schedulernodeinfo.mkNodeInfo k None mine affine)
        | schedulernodeinfo.Drop => None
        end
    end.
Proof.
  induction pods as [|pod pods IH] using rev_ind; cbn zeta.
  { rewrite !filter_nil, decide_True by done. cbn [fold_left].
    destruct (m0 !! k) as [[]|]; [|by destruct policy].
    simpl. by rewrite !app_nil_r. }
  cbn zeta in IH. rewrite fold_left_app, filter_app; cbn [fold_left].
  set (m := fold_left (schedulernodeinfo.addPod policy) pods m0) in *.
  rewrite filter_cons, filter_nil.
  destruct (decide (v1.NodeName pod = k)) as [Hk|Hk].
  - subst k. rewrite filter_app, filter_cons, filter_nil.
    unfold schedulernodeinfo.addPod. rewrite IH.
    destruct (m0 !! v1.NodeName pod) as [v|] eqn:Hv.
    + rewrite lookup_insert_eq. unfold schedulernodeinfo.AddPod; simpl.
      rewrite <-!(assoc_L (++)).
      destruct (v1.Affinity pod); [by rewrite decide_True by done|].
      rewrite decide_False by done. by rewrite !app_nil_r.
    + destruct policy; [|done].
      rewrite (decide_False (P := _ ++ [pod] = []))
        by (by intros [_ ?]%app_nil).
      destruct (decide (filter _ pods = [])) as [->|Hmine].
      * rewrite lookup_insert_eq. unfold schedulernodeinfo.AddPod; simpl.
        by destruct (v1.Affinity pod).
      * rewrite lookup_insert_eq. unfold schedulernodeinfo.AddPod; simpl.
        destruct (v1.Affinity pod); [by rewrite decide_True by done|].
        rewrite decide_False by done. by rewrite !app_nil_r.
  - rewrite !app_nil_r.
    assert (Hm : schedulernodeinfo.addPod policy m pod !! k = m !! k).
    { unfold schedulernodeinfo.addPod.
      destruct (m !! v1.NodeName pod); [by rewrite lookup_insert_ne|].
      destruct policy; [by rewrite lookup_insert_ne|done]. }
    by rewrite Hm, IH.
Qed.

Lemma CreateNodeNameToInfoMap_lookup
    (policy : schedulernodeinfo.OrphanPolicy)
    (pods : list v1.Pod) (nodes : list v1.Node) (k : string) :
  let mine := filter (λ pod, v1.NodeName pod = k) pods in
  let affine := filter (λ pod, v1.Affinity pod = true) mine in
  schedulernodeinfo.CreateNodeNameToInfoMap policy pods nodes !! k
  = match last (filter (λ nd, v1.Name nd = k) nodes) with
    | Some nd => Some (schedulernodeinfo.mkNodeInfo k (Some nd) mine affine)
    | None =>
        match policy with
        | schedulernodeinfo.Synthesize =>
            if decide (mine = []) then None
            else Some (schedulernodeinfo.mkNodeInfo k None mine affine)
        | schedulernodeinfo.Drop => None
        end
    end.
Proof.
  cbn zeta. unfold schedulernodeinfo.CreateNodeNameToInfoMap.
  pose proof (addPod_fold_lookup policy pods
                (fold_left schedulernodeinfo.addNode nodes ∅) k) as Hpods.
  cbn zeta in Hpods. rewrite Hpods, addNode_fold_lookup.
  by destruct (last _).
Qed.

(** Every visited entry of a map of named aggregates carries its key. *)
Lemma identities_keys (m : gmap string schedulernodeinfo.NodeInfo)
    (order : entries) :
  named m → order ≡ₚ map_to_list m → identities (order.*2) = order.*1.
Proof.
  intros Hm Hperm. unfold identities.
  rewrite <-list_fmap_compose. apply Forall_fmap_ext, Forall_forall.
  intros [k v] Hkv; simpl. apply Hm.
  by rewrite Hperm, elem_of_map_to_list in Hkv.
Qed.

(** C1.  In every snapshot that [NewSnapshot] builds, under either policy
    for orphaned pods and however the loop visits the map, the keys of
    [NodeInfoMap] are the identities of the aggregates of [NodeInfoList], no
    identity occurs twice in [NodeInfoList], and the aggregates of the list
    are those the map stores under their identities. *)
Theorem NewSnapshot_bijection (policy : schedulernodeinfo.OrphanPolicy)
    (r : ranger) (pods : list v1.Pod) (nodes : list v1.Node) :
  range_ok r →
  let s := NewSnapshot policy r pods nodes in
  let ordered := slice.elems (NodeInfoList s) in
  dom (NodeInfoMap s) = list_to_set (identities ordered)
  ∧ NoDup (identities ordered)
  ∧ (∀ n, n ∈ ordered
          ↔ NodeInfoMap s !! schedulernodeinfo.name n = Some n).
Proof.
  intros Hr s ordered.
  set (m := schedulernodeinfo.CreateNodeNameToInfoMap policy pods nodes).
  assert (Hm : named m) by apply named_CreateNodeNameToInfoMap.
  assert (Hordered : ordered = (r m).*2)
    by apply NewSnapshot_NodeInfoList.
  assert (Hids : identities ordered ≡ₚ (map_to_list m).*1).
  { rewrite Hordered, (identities_keys m); [|done|apply Hr].
    by rewrite (Hr m). }
  change (NodeInfoMap s) with m.
  split_and!.
  - apply leibniz_equiv. rewrite Hids. apply dom_alt.
  - rewrite Hids. apply NoDup_fst_map_to_list.
  - intros n. rewrite Hordered, (Hr m), list_elem_of_fmap. split.
    + intros ([k v] & -> & Hkv); simpl.
      apply elem_of_map_to_list in Hkv. by rewrite (Hm k v Hkv).
    + intros Hn. exists (schedulernodeinfo.name n, n).
      by rewrite elem_of_map_to_list.
Qed.

(** C2.  In every snapshot that [NewSnapshot] builds,
    [HavePodsWithAffinityNodeInfoList] is [NodeInfoList] filtered to the
    aggregates that have pods with affinity terms, in the order of
    [NodeInfoList]. *)
Theorem NewSnapshot_affinity_subsequence
    (policy : schedulernodeinfo.OrphanPolicy) (r : ranger)
    (pods : list v1.Pod) (nodes : list v1.Node) :
  let s := NewSnapshot policy r pods nodes in
  slice.elems (HavePodsWithAffinityNodeInfoList s)
  = filter affinityFlag (slice.elems (NodeInfoList s))
  ∧ slice.elems (HavePodsWithAffinityNodeInfoList s)
    `sublist_of` slice.elems (NodeInfoList s).
Proof.
  intros s.
  assert (Heq : slice.elems (HavePodsWithAffinityNodeInfoList s)
                = filter affinityFlag (slice.elems (NodeInfoList s))).
  { unfold s, NewSnapshot; simpl.
    by rewrite (proj1 (NewSnapshot_loop _ _)), (proj2 (NewSnapshot_loop _ _)). }
  split; [done|]. rewrite Heq. apply sublist_filter.
Qed.

(** C9.  [NewEmptySnapshot] has an empty map, two empty lists and
    generation zero. *)
Theorem NewEmptySnapshot_empty :
  NodeInfoMap NewEmptySnapshot = ∅
  ∧ slice.elems (NodeInfoList NewEmptySnapshot) = []
  ∧ slice.elems (HavePodsWithAffinityNodeInfoList NewEmptySnapshot) = []
  ∧ Generation NewEmptySnapshot = 0%Z.
Proof. by split_and!. Qed.

(** ** The node-query facade *)

(** C5.  [Get] returns the aggregate that the map stores for the name, with
    a nil error, and for a name that the map does not have it returns no
    aggregate and the not-found error that carries the name.  In a snapshot
    that [NewSnapshot] builds the aggregate is the one that the construction
    stored.  No other operation returns an error, and [Get] can. *)
Theorem Get_lookup (s : Snapshot) (nodeName : string) :
  (∀ v, NodeInfoMap s !! nodeName = Some v →
        nodeInfoLister.Get (NodeInfos s) nodeName = (Some v, None))
  ∧ (NodeInfoMap s !! nodeName = None →
     nodeInfoLister.Get (NodeInfos s) nodeName
     = (None,
        Some (Errorf "nodeinfo not found for node name %q" [nodeName])))
  ∧ (∀ policy r pods nodes v,
       schedulernodeinfo.CreateNodeNameToInfoMap policy pods nodes
         !! nodeName = Some v →
       nodeInfoLister.Get (NodeInfos (NewSnapshot policy r pods nodes))
         nodeName = (Some v, None))
  ∧ (∀ c, (∀ nm, c ≠ CallNodeInfosGet nm) →
          reply_error (call c s).1 = None)
  ∧ reply_error (call (CallNodeInfosGet nodeName) NewEmptySnapshot).1
    ≠ None.
Proof.
  split_and!.
  - intros v Hv. unfold nodeInfoLister.Get; simpl. by rewrite Hv.
  - intros Hnone. unfold nodeInfoLister.Get; simpl. by rewrite Hnone.
  - intros policy r pods nodes v Hv.
    unfold nodeInfoLister.Get; simpl. by rewrite Hv.
  - intros c Hc. destruct c as [| | | | |nm]; try done. by destruct (Hc nm).
  - done.
Qed.

(** What [ListNodes] appends for one aggregate. *)
Lemma bind_option_list (l : list schedulernodeinfo.NodeInfo) :
  l ≫= (λ n, option_list (schedulernodeinfo.Node n))
  = omap schedulernodeinfo.Node l.
Proof.
  induction l as [|n l IH]; [done|].
  rewrite bind_cons, IH. simpl.
  by destruct (schedulernodeinfo.Node n).
Qed.

Lemma omap_length_le {A B : Type} (f : A → option B) (l : list A) :
  length (omap f l) ≤ length l.
Proof.
  induction l as [|a l IH]; csimpl; [lia|].
  destruct (f a); simpl; lia.
Qed.

(** C6.  [ListNodes] returns the node descriptors of the aggregates of
    [NodeInfoList] that have one, in the order of [NodeInfoList]; an
    aggregate without descriptor contributes nothing, and the result is no
    longer than [NodeInfoList]. *)
Theorem ListNodes_present (s : Snapshot) :
  let ordered := slice.elems (NodeInfoList s) in
  slice.elems (ListNodes s) = omap schedulernodeinfo.Node ordered
  ∧ (∀ nd, nd ∈ slice.elems (ListNodes s)
           ↔ ∃ n, n ∈ ordered ∧ schedulernodeinfo.Node n = Some nd)
  ∧ (∀ before n after,
       ordered = before ++ n :: after →
       schedulernodeinfo.Node n = None →
       slice.elems (ListNodes s)
       = omap schedulernodeinfo.Node before
         ++ omap schedulernodeinfo.Node after)
  ∧ slice.len (ListNodes s) ≤ length ordered.
Proof.
  intros ordered.
  assert (Heq : slice.elems (ListNodes s)
                = omap schedulernodeinfo.Node ordered).
  { unfold ListNodes. rewrite <-bind_option_list.
    apply (elems_loop _ (λ n, option_list (schedulernodeinfo.Node n))).
    intros s' n. destruct (schedulernodeinfo.Node n); simpl; [done|].
    by rewrite app_nil_r. }
  split_and!; [done| | |].
  - intros nd. by rewrite Heq, list_elem_of_omap.
  - intros before n after Hsplit Hn.
    rewrite Heq, Hsplit, omap_app. simpl. by rewrite Hn.
  - unfold slice.len. rewrite Heq. apply omap_length_le.
Qed.

(** ** Totality of the listings *)

(** C8.  The four listing operations return a nil error on every snapshot,
    and on an empty snapshot, be it the one of [NewEmptySnapshot] or the one
    that [NewSnapshot] builds from no pods and no nodes, they return empty
    lists. *)
Theorem listings_total (s : Snapshot)
    (policy : schedulernodeinfo.OrphanPolicy) (r r1 r2 : ranger)
    (podFilter : schedulerlisters.PodFilter) (selector : labels.Selector) :
  range_ok r → range_ok r2 →
  ((podLister.List (Pods s) r1 r2 selector).2 = None
   ∧ (podLister.FilteredList (Pods s) r1 r2 podFilter selector).2 = None
   ∧ (nodeInfoLister.List (NodeInfos s)).2 = None
   ∧ (nodeInfoLister.HavePodsWithAffinityList (NodeInfos s)).2 = None)
  ∧ ∀ e, e = NewEmptySnapshot ∨ e = NewSnapshot policy r [] [] →
      slice.elems (podLister.List (Pods e) r1 r2 selector).1 = []
      ∧ slice.elems
          (podLister.FilteredList (Pods e) r1 r2 podFilter selector).1 = []
      ∧ slice.elems (nodeInfoLister.List (NodeInfos e)).1 = []
      ∧ slice.elems
          (nodeInfoLister.HavePodsWithAffinityList (NodeInfos e)).1 = [].
Proof.
  intros Hr Hr2. split; [by split_and!|].
  intros e He.
  assert (Hmap : NodeInfoMap e = ∅) by (by destruct He as [-> | ->]).
  assert (Hlists : slice.elems (NodeInfoList e) = []
                   ∧ slice.elems (HavePodsWithAffinityNodeInfoList e) = []).
  { destruct He as [-> | ->]; [done|].
    unfold NewSnapshot; simpl.
    change (schedulernodeinfo.CreateNodeNameToInfoMap policy [] []) with
      (∅ : gmap string schedulernodeinfo.NodeInfo).
    by rewrite (range_ok_empty r Hr). }
  destruct Hlists as [Hordered Haffinity].
  split_and!; [| |done|done].
  - by apply FilteredList_empty.
  - by apply FilteredList_empty.
Qed.

(** ** The generation *)

Lemma calls_unchanged (cs : list Call) (s : Snapshot) : (calls cs s).2 = s.
Proof.
  revert s. induction cs as [|c cs IH]; intros s; [done|].
  cbn [calls].
  assert (Hc : (call c s).2 = s) by (by destruct c).
  destruct (call c s) as [rp s'] eqn:Hcall; simpl in Hc; subst s'.
  specialize (IH s). by destruct (calls cs s) as [rs s''].
Qed.

(** C7, as the code has it.  The generation is the integer that the
    constructors leave at zero, in the empty snapshot and in every snapshot
    that [NewSnapshot] builds, and no sequence of operations of the core
    changes it, nor anything else of the snapshot. *)
Theorem Generation_zero_and_unchanged
    (policy : schedulernodeinfo.OrphanPolicy) (r : ranger)
    (pods : list v1.Pod) (nodes : list v1.Node)
    (cs : list Call) (s : Snapshot) :
  Generation NewEmptySnapshot = 0%Z
  ∧ Generation (NewSnapshot policy r pods nodes) = 0%Z
  ∧ (calls cs s).2 = s
  ∧ Generation (calls cs s).2 = Generation s.
Proof.
  split_and!; [done|done|apply calls_unchanged|].
  by rewrite calls_unchanged.
Qed.

(** C7 as stated fails: the snapshot of the scenario, built after the empty
    snapshot it replaces, has the same generation, and so has the later
    capture that replaces it. *)
Lemma Generation_not_increasing :
  let first := NewEmptySnapshot in
  let second := scenario.snapshot in
  let third := scenario.later in
  Generation second = Generation first
  ∧ Generation third = Generation second
  ∧ ¬ (Generation first < Generation second)%Z
  ∧ ¬ (Generation second < Generation third)%Z.
Proof. simpl. split_and!; [done|done|lia|lia]. Qed.

(** In a snapshot that [NewSnapshot] builds, the pods of the index are the
    pods of the aggregates of [NodeInfoList]. *)
Lemma allPods_NewSnapshot (policy : schedulernodeinfo.OrphanPolicy)
    (r : ranger) (pods : list v1.Pod) (nodes : list v1.Node) :
  range_ok r →
  let s := NewSnapshot policy r pods nodes in
  allPods s ≡ₚ slice.elems (NodeInfoList s) ≫= schedulernodeinfo.Pods.
Proof.
  intros Hr s. unfold s. rewrite NewSnapshot_NodeInfoList.
  unfold allPods; simpl.
  rewrite list_fmap_bind.
  by rewrite (Hr (schedulernodeinfo.CreateNodeNameToInfoMap policy pods nodes)).
Qed.

(** * Further properties of the code *)

(** ** [FilteredList] and [List] *)

Lemma FilteredList_elems (s : Snapshot) (r1 r2 : ranger)
    (podFilter : schedulerlisters.PodFilter) (selector : labels.Selector) :
  slice.elems (podLister.FilteredList (Pods s) r1 r2 podFilter selector).1
  = passing podFilter selector (r2 (NodeInfoMap s)).
Proof. unfold podLister.FilteredList; simpl. by rewrite collect_elems. Qed.

Lemma FilteredList_cap (s : Snapshot) (r1 r2 : ranger)
    (podFilter : schedulerlisters.PodFilter) (selector : labels.Selector) :
  range_ok r1 → range_ok r2 →
  slice.cap (podLister.FilteredList (Pods s) r1 r2 podFilter selector).1
  = podCount s.
Proof.
  intros Hr1 Hr2. unfold podLister.FilteredList; simpl.
  rewrite collect_cap; simpl; [by apply maxSize_podCount|].
  rewrite (maxSize_podCount s r1 Hr1).
  etrans; [apply passing_length|].
  unfold podCount. by rewrite (Hr2 (NodeInfoMap s)).
Qed.

Lemma passing_Permutation (podFilter : schedulerlisters.PodFilter)
    (selector : labels.Selector) (order order' : entries) :
  order ≡ₚ order' →
  passing podFilter selector order ≡ₚ passing podFilter selector order'.
Proof. unfold passing. by intros ->. Qed.

(** Filtering the pods that pass one pair of tests by a second pair gives
    the pods that pass the second pair, when the second implies the
    first. *)
Lemma passing_filter (f g : schedulerlisters.PodFilter)
    (sel sel' : labels.Selector) (order : entries) :
  (∀ pod, satisfies f sel pod → satisfies g sel' pod) →
  passing f sel order = filter (satisfies f sel) (passing g sel' order).
Proof.
  intros Himp. unfold passing.
  induction order as [|kn order IH]; [done|].
  rewrite !bind_cons, filter_app, <-IH. f_equal.
  by rewrite list_filter_filter_l.
Qed.

(** The pod filter, as a test on the pods that [List] returns. *)
Lemma filter_satisfies_alwaysTrue (podFilter : schedulerlisters.PodFilter)
    (selector : labels.Selector) (l : list v1.Pod) :
  filter (satisfies podFilter selector)
    (filter (satisfies (λ _, true) selector) l)
  = filter (λ pod, podFilter pod = true)
      (filter (satisfies (λ _, true) selector) l).
Proof.
  rewrite !list_filter_filter. apply list_filter_iff.
  intros pod. unfold satisfies. tauto.
Qed.

(** X1.  [FilteredList] returns the pods that [List] returns for the same
    selector, filtered by the pod filter, in the order of [List], when both
    visit the map alike. *)
Theorem FilteredList_filters_List (s : Snapshot) (r1 r2 : ranger)
    (podFilter : schedulerlisters.PodFilter) (selector : labels.Selector) :
  slice.elems (podLister.FilteredList (Pods s) r1 r2 podFilter selector).1
  = filter (λ pod, podFilter pod = true)
      (slice.elems (podLister.List (Pods s) r1 r2 selector).1).
Proof.
  unfold podLister.List. rewrite !FilteredList_elems.
  rewrite (passing_filter podFilter (λ _, true) selector selector)
    by (unfold satisfies; tauto).
  generalize (r2 (NodeInfoMap s)). intros order. unfold passing.
  induction order as [|kn order IH]; [done|].
  rewrite bind_cons, !filter_app, IH. f_equal.
  apply filter_satisfies_alwaysTrue.
Qed.

(** X2.  The order in which the two loops of [FilteredList] visit the map
    changes the result only by a permutation: two calls on the same snapshot
    with the same filter and selector return the same pods with the same
    multiplicities, in slices of the same length and capacity. *)
Theorem FilteredList_any_order (s : Snapshot) (r1 r2 r1' r2' : ranger)
    (podFilter : schedulerlisters.PodFilter) (selector : labels.Selector) :
  range_ok r1 → range_ok r2 → range_ok r1' → range_ok r2' →
  let a := (podLister.FilteredList (Pods s) r1 r2 podFilter selector).1 in
  let b := (podLister.FilteredList (Pods s) r1' r2' podFilter selector).1 in
  slice.elems a ≡ₚ slice.elems b
  ∧ slice.len a = slice.len b
  ∧ slice.cap a = slice.cap b.
Proof.
  intros Hr1 Hr2 Hr1' Hr2' a b.
  assert (Hperm : slice.elems a ≡ₚ slice.elems b).
  { unfold a, b. rewrite !FilteredList_elems.
    apply passing_Permutation.
    by rewrite (Hr2 (NodeInfoMap s)), (Hr2' (NodeInfoMap s)). }
  split_and!; [done| |].
  - unfold slice.len. by rewrite Hperm.
  - unfold a, b. by rewrite !FilteredList_cap.
Qed.

Lemma filter_Forall_id {A : Type} (P : A → Prop) `{!∀ x, Decision (P x)}
    (l : list A) :
  Forall P l → filter P l = l.
Proof.
  induction 1 as [|x l Hx Hl IH]; [done|].
  by rewrite filter_cons_True, IH.
Qed.

Lemma length_bind_pods (order : entries) :
  length (order ≫= λ kn, schedulernodeinfo.Pods kn.2)
  = sum_list_with (λ kn : string * schedulernodeinfo.NodeInfo,
                     length (schedulernodeinfo.Pods kn.2)) order.
Proof.
  induction order as [|kn order IH]; [done|].
  rewrite bind_cons, length_app, IH. done.
Qed.

(** X3.  When every pod of every aggregate of the map passes the filter and
    the selector, [FilteredList] returns all pods of the map and fills the
    buffer it allocated exactly: length and capacity are both the sum of
    the pod counts. *)
Theorem FilteredList_full_buffer (s : Snapshot) (r1 r2 : ranger)
    (podFilter : schedulerlisters.PodFilter) (selector : labels.Selector) :
  range_ok r1 → range_ok r2 →
  (∀ k n pod, NodeInfoMap s !! k = Some n →
              pod ∈ schedulernodeinfo.Pods n →
              satisfies podFilter selector pod) →
  let res := (podLister.FilteredList (Pods s) r1 r2 podFilter selector).1 in
  slice.elems res ≡ₚ allPods s
  ∧ slice.len res = podCount s
  ∧ slice.len res = slice.cap res.
Proof.
  intros Hr1 Hr2 Hall res.
  assert (Hres : slice.elems res
                 = r2 (NodeInfoMap s) ≫= λ kn, schedulernodeinfo.Pods kn.2).
  { unfold res. rewrite FilteredList_elems. unfold passing.
    apply Forall_bind_ext, Forall_forall. intros [k n] Hkn; simpl.
    apply filter_Forall_id, Forall_forall. intros pod Hpod.
    apply (Hall k n pod); [|done].
    by rewrite (Hr2 (NodeInfoMap s)), elem_of_map_to_list in Hkn. }
  assert (Hlen : slice.len res = podCount s).
  { unfold slice.len, podCount.
    by rewrite Hres, length_bind_pods, (Hr2 (NodeInfoMap s)). }
  split_and!; [|done|].
  - rewrite Hres. unfold allPods. by rewrite (Hr2 (NodeInfoMap s)).
  - rewrite Hlen. unfold res. by rewrite FilteredList_cap.
Qed.

(** X4.  [FilteredList] is monotone in its tests: when every pod that passes
    one filter and selector passes another filter and selector, the result
    for the first pair is the result for the second pair filtered by the
    first, hence a subsequence of it, the map being visited alike. *)
Theorem FilteredList_monotone (s : Snapshot) (r1 r2 r1' : ranger)
    (f g : schedulerlisters.PodFilter) (sel sel' : labels.Selector) :
  (∀ pod, satisfies f sel pod → satisfies g sel' pod) →
  let narrow := (podLister.FilteredList (Pods s) r1 r2 f sel).1 in
  let wide := (podLister.FilteredList (Pods s) r1' r2 g sel').1 in
  slice.elems narrow = filter (satisfies f sel) (slice.elems wide)
  ∧ slice.elems narrow `sublist_of` slice.elems wide.
Proof.
  intros Himp narrow wide.
  assert (Heq : slice.elems narrow
                = filter (satisfies f sel) (slice.elems wide)).
  { unfold narrow, wide. rewrite !FilteredList_elems.
    by apply passing_filter. }
  split; [done|]. rewrite Heq. apply sublist_filter.
Qed.

(** X5.  [FilteredList] returns no pod exactly when no pod of any aggregate
    of the map passes both the filter and the selector. *)
Theorem FilteredList_nil_iff (s : Snapshot) (r1 r2 : ranger)
    (podFilter : schedulerlisters.PodFilter) (selector : labels.Selector) :
  range_ok r2 →
  slice.elems (podLister.FilteredList (Pods s) r1 r2 podFilter selector).1
  = []
  ↔ ∀ k n pod, NodeInfoMap s !! k = Some n →
               pod ∈ schedulernodeinfo.Pods n →
               ¬ satisfies podFilter selector pod.
Proof.
  intros Hr2. rewrite FilteredList_elems. split.
  - intros Hnil k n pod Hkn Hpod Hsat.
    assert (Hin : pod ∈ passing podFilter selector (r2 (NodeInfoMap s))).
    { unfold passing. apply list_elem_of_bind. exists (k, n). split.
      - by apply list_elem_of_filter.
      - by rewrite (Hr2 (NodeInfoMap s)), elem_of_map_to_list. }
    rewrite Hnil in Hin. by apply not_elem_of_nil in Hin.
  - intros Hnone. apply elem_of_nil_inv. intros pod Hin.
    unfold passing in Hin.
    apply list_elem_of_bind in Hin as ([k n] & Hpod & Hkn).
    apply list_elem_of_filter in Hpod as [Hsat Hpod].
    rewrite (Hr2 (NodeInfoMap s)), elem_of_map_to_list in Hkn.
    by apply (Hnone k n pod).
Qed.

(** The pods that pass a filter and those that fail it, among the pods whose
    labels the selector matches. *)
Lemma passing_partition (podFilter : schedulerlisters.PodFilter)
    (selector : labels.Selector) (order : entries) :
  passing podFilter selector order
  ++ passing (λ pod, negb (podFilter pod)) selector order
  ≡ₚ passing (λ _, true) selector order.
Proof.
  unfold passing. induction order as [|[k n] order IH]; [done|].
  rewrite !bind_cons; simpl.
  rewrite <-IH.
  rewrite <-(filter_app_complement (λ pod, podFilter pod = true)
               (filter (satisfies (λ _, true) selector)
                  (schedulernodeinfo.Pods n))).
  rewrite !list_filter_filter.
  rewrite (list_filter_iff (satisfies podFilter selector)
             (λ pod, podFilter pod = true
                     ∧ satisfies (λ _ : v1.Pod, true) selector pod))
    by (intros pod; unfold satisfies; tauto).
  rewrite (list_filter_iff
             (satisfies (λ pod, negb (podFilter pod)) selector)
             (λ pod, ¬ podFilter pod = true
                     ∧ satisfies (λ _ : v1.Pod, true) selector pod)).
  - solve_Permutation.
  - intros pod. unfold satisfies. destruct (podFilter pod); simpl.
    + split; [by intros [? _]|by intros [[] _]].
    + split; [by intros [_ ?]|by intros [_ [_ ?]]].
Qed.

(** X6.  A pod filter and its negation split what [List] returns: the
    result of [FilteredList] for the filter together with the result for
    the negated filter is, up to order, the result of [List] for the same
    selector, and the two lengths add up to the length of that result. *)
Theorem FilteredList_partition (s : Snapshot) (r1 r2 : ranger)
    (podFilter : schedulerlisters.PodFilter) (selector : labels.Selector) :
  let yes := (podLister.FilteredList (Pods s) r1 r2 podFilter selector).1 in
  let no :=
    (podLister.FilteredList (Pods s) r1 r2
       (λ pod, negb (podFilter pod)) selector).1 in
  let all := (podLister.List (Pods s) r1 r2 selector).1 in
  slice.elems yes ++ slice.elems no ≡ₚ slice.elems all
  ∧ slice.len yes + slice.len no = slice.len all.
Proof.
  intros yes no all.
  assert (Hperm : slice.elems yes ++ slice.elems no ≡ₚ slice.elems all).
  { unfold yes, no, all, podLister.List. rewrite !FilteredList_elems.
    apply passing_partition. }
  split; [done|]. unfold slice.len. by rewrite <-Hperm, length_app.
Qed.

(** ** [NewSnapshot] and the node-query facade *)

Lemma Get_Some_iff (s : Snapshot) (nodeName : string)
    (v : schedulernodeinfo.NodeInfo) :
  nodeInfoLister.Get (NodeInfos s) nodeName = (Some v, None)
  ↔ NodeInfoMap s !! nodeName = Some v.
Proof.
  unfold nodeInfoLister.Get; simpl.
  destruct (NodeInfoMap s !! nodeName) as [v'|]; split; congruence.
Qed.

Lemma NewSnapshot_elem_lookup (policy : schedulernodeinfo.OrphanPolicy)
    (r : ranger) (pods : list v1.Pod) (nodes : list v1.Node)
    (v : schedulernodeinfo.NodeInfo) :
  range_ok r →
  let s := NewSnapshot policy r pods nodes in
  v ∈ slice.elems (NodeInfoList s) ↔ ∃ k, NodeInfoMap s !! k = Some v.
Proof.
  intros Hr s. unfold s. rewrite NewSnapshot_NodeInfoList.
  rewrite (Hr _), list_elem_of_fmap. split.
  - intros ([k v'] & -> & Hkv). exists k. by apply elem_of_map_to_list.
  - intros [k Hk]. exists (k, v). by rewrite elem_of_map_to_list.
Qed.

(** X7.  [NewSnapshot] lists every aggregate of its map exactly once:
    [NodeInfoList] is a permutation of the values of [NodeInfoMap], so the
    two have the same length, and [HavePodsWithAffinityNodeInfoList] is no
    longer. *)
Theorem NewSnapshot_lists_the_map (policy : schedulernodeinfo.OrphanPolicy)
    (r : ranger) (pods : list v1.Pod) (nodes : list v1.Node) :
  range_ok r →
  let s := NewSnapshot policy r pods nodes in
  slice.elems (NodeInfoList s) ≡ₚ (map_to_list (NodeInfoMap s)).*2
  ∧ slice.len (NodeInfoList s) = size (NodeInfoMap s)
  ∧ slice.len (HavePodsWithAffinityNodeInfoList s)
    ≤ slice.len (NodeInfoList s).
Proof.
  intros Hr s.
  assert (Hperm : slice.elems (NodeInfoList s)
                  ≡ₚ (map_to_list (NodeInfoMap s)).*2).
  { unfold s. rewrite NewSnapshot_NodeInfoList. by rewrite (Hr _). }
  split_and!; [done| |].
  - unfold slice.len. by rewrite Hperm, length_fmap, length_map_to_list.
  - unfold slice.len, s, NewSnapshot; simpl.
    rewrite (proj1 (NewSnapshot_loop _ _)), (proj2 (NewSnapshot_loop _ _)).
    simpl. apply length_filter.
Qed.

(** X8.  In a snapshot that [NewSnapshot] builds, the aggregates that the
    node-query [List] returns are those that [Get] returns for some name. *)
Theorem List_Get_agree (policy : schedulernodeinfo.OrphanPolicy)
    (r : ranger) (pods : list v1.Pod) (nodes : list v1.Node)
    (v : schedulernodeinfo.NodeInfo) :
  range_ok r →
  let s := NewSnapshot policy r pods nodes in
  v ∈ slice.elems (nodeInfoLister.List (NodeInfos s)).1
  ↔ ∃ nodeName, nodeInfoLister.Get (NodeInfos s) nodeName = (Some v, None).
Proof.
  intros Hr s. unfold nodeInfoLister.List; simpl.
  unfold s. rewrite (NewSnapshot_elem_lookup policy r pods nodes v Hr).
  by setoid_rewrite Get_Some_iff.
Qed.

Lemma ListNodes_elems (s : Snapshot) :
  slice.elems (ListNodes s)
  = omap schedulernodeinfo.Node (slice.elems (NodeInfoList s)).
Proof.
  unfold ListNodes. rewrite <-bind_option_list.
  apply (elems_loop _ (λ n, option_list (schedulernodeinfo.Node n))).
  intros s' n. destruct (schedulernodeinfo.Node n); simpl; [done|].
  by rewrite app_nil_r.
Qed.

(** X9.  In a snapshot that [NewSnapshot] builds, [ListNodes] returns the
    descriptors of the aggregates that [Get] can return: a node is listed
    exactly when it is the descriptor of the aggregate of some name. *)
Theorem ListNodes_Get_agree (policy : schedulernodeinfo.OrphanPolicy)
    (r : ranger) (pods : list v1.Pod) (nodes : list v1.Node)
    (nd : v1.Node) :
  range_ok r →
  let s := NewSnapshot policy r pods nodes in
  nd ∈ slice.elems (ListNodes s)
  ↔ ∃ nodeName v,
      nodeInfoLister.Get (NodeInfos s) nodeName = (Some v, None)
      ∧ schedulernodeinfo.Node v = Some nd.
Proof.
  intros Hr s. rewrite ListNodes_elems, list_elem_of_omap. split.
  - intros (v & Hv & Hnd).
    apply (NewSnapshot_elem_lookup policy r pods nodes v Hr) in Hv
      as [k Hk].
    exists k, v. by rewrite Get_Some_iff.
  - intros (k & v & Hget & Hnd). exists v. split; [|done].
    apply (NewSnapshot_elem_lookup policy r pods nodes v Hr).
    exists k. by apply Get_Some_iff.
Qed.

(** X10.  The two facades of a snapshot that [NewSnapshot] builds agree:
    the pods that the pod-query [List] returns are, up to order, the pods
    of the aggregates that the node-query [List] returns whose labels the
    selector matches. *)
Theorem pod_List_of_node_List (policy : schedulernodeinfo.OrphanPolicy)
    (r r1 r2 : ranger) (pods : list v1.Pod) (nodes : list v1.Node)
    (selector : labels.Selector) :
  range_ok r → range_ok r2 →
  let s := NewSnapshot policy r pods nodes in
  slice.elems (podLister.List (Pods s) r1 r2 selector).1
  ≡ₚ filter (λ pod, labels.Matches selector (v1.Labels pod) = true)
       (slice.elems (nodeInfoLister.List (NodeInfos s)).1
          ≫= schedulernodeinfo.Pods).
Proof.
  intros Hr Hr2 s. unfold podLister.List. rewrite FilteredList_elems.
  unfold nodeInfoLister.List; cbn [fst nodeInfoLister.snapshot NodeInfos].
  rewrite (passing_Permutation _ _ _ _ (Hr2 (NodeInfoMap s))).
  rewrite <-filter_bind_pods.
  pose proof (allPods_NewSnapshot policy r pods nodes Hr) as Hall.
  cbn zeta in Hall. fold s in Hall. unfold allPods in Hall.
  rewrite Hall. apply reflexive_eq, list_filter_iff.
  intros pod. unfold satisfies. tauto.
Qed.

(** ** Capacities *)

Lemma len_append {A : Type} (s : slice.t A) (x : A) :
  slice.len (slice.append s x) = S (slice.len s).
Proof. unfold slice.len; simpl. rewrite length_app; simpl. lia. Qed.

Lemma NewSnapshot_loop_cap (order : entries) (acc : lists) :
  slice.len acc.1 + length order ≤ slice.cap acc.1 →
  slice.len acc.2 + length order ≤ slice.cap acc.2 →
  slice.cap (fold_left NewSnapshot_step order acc).1 = slice.cap acc.1
  ∧ slice.cap (fold_left NewSnapshot_step order acc).2 = slice.cap acc.2.
Proof.
  revert acc. induction order as [|[k v] order IH]; intros acc H1 H2.
  - done.
  - cbn [fold_left]. simpl in H1, H2.
    assert (Hc1 : slice.cap (NewSnapshot_step acc (k, v)).1
                  = slice.cap acc.1).
    { unfold NewSnapshot_step; cbn [snd].
      destruct (0 <? _); cbn [fst]; apply cap_append_room; lia. }
    assert (Hl1 : slice.len (NewSnapshot_step acc (k, v)).1
                  = S (slice.len acc.1)).
    { unfold NewSnapshot_step; cbn [snd].
      destruct (0 <? _); cbn [fst]; apply len_append. }
    assert (Hc2 : slice.cap (NewSnapshot_step acc (k, v)).2
                  = slice.cap acc.2).
    { unfold NewSnapshot_step; cbn [snd].
      destruct (0 <? _); cbn [snd]; [|done]. apply cap_append_room. lia. }
    assert (Hl2 : slice.len (NewSnapshot_step acc (k, v)).2
                  ≤ S (slice.len acc.2)).
    { unfold NewSnapshot_step; cbn [snd].
      destruct (0 <? _); cbn [snd]; [|lia]. rewrite len_append. lia. }
    destruct (IH (NewSnapshot_step acc (k, v))) as [-> ->]; [lia|lia|].
    by rewrite Hc1, Hc2.
Qed.

(** X11.  When the map that [NewSnapshot] receives has no more entries than
    there are nodes, the two lists fit the capacity they were allocated
    with: neither is reallocated and both keep capacity [len(nodes)]. *)
Theorem NewSnapshot_presized (policy : schedulernodeinfo.OrphanPolicy)
    (r : ranger) (pods : list v1.Pod) (nodes : list v1.Node) :
  range_ok r →
  size (schedulernodeinfo.CreateNodeNameToInfoMap policy pods nodes)
  ≤ length nodes →
  let s := NewSnapshot policy r pods nodes in
  slice.cap (NodeInfoList s) = length nodes
  ∧ slice.cap (HavePodsWithAffinityNodeInfoList s) = length nodes.
Proof.
  intros Hr Hsize s. unfold s, NewSnapshot; simpl.
  apply (NewSnapshot_loop_cap _ (slice.make (length nodes),
                                 slice.make (length nodes))); simpl.
  - by rewrite (Hr _), length_map_to_list.
  - by rewrite (Hr _), length_map_to_list.
Qed.

(** X12.  When [NodeInfoList] is no longer than [NodeInfoMap] has entries,
    as in every snapshot that [NewSnapshot] builds, [ListNodes] fills the
    buffer it allocated without reallocating it: the result keeps capacity
    [len(NodeInfoMap)]. *)
Theorem ListNodes_presized (s : Snapshot) :
  slice.len (NodeInfoList s) ≤ size (NodeInfoMap s) →
  slice.cap (ListNodes s) = size (NodeInfoMap s)
  ∧ slice.len (ListNodes s) ≤ slice.cap (ListNodes s).
Proof.
  intros Hlen.
  assert (Hcap : slice.cap (ListNodes s) = size (NodeInfoMap s)).
  { unfold ListNodes.
    apply (cap_loop _ (λ n, option_list (schedulernodeinfo.Node n))).
    - intros s' n. destruct (schedulernodeinfo.Node n); simpl; [done|].
      by rewrite app_nil_r.
    - intros s' n. destruct (schedulernodeinfo.Node n); [|done].
      intros Hfit. apply cap_append_room. simpl in Hfit. lia.
    - simpl. rewrite bind_option_list.
      pose proof (omap_length_le schedulernodeinfo.Node
                    (slice.elems (NodeInfoList s))).
      unfold slice.len in Hlen. lia. }
  split; [done|]. rewrite Hcap. unfold slice.len.
  rewrite ListNodes_elems.
  pose proof (omap_length_le schedulernodeinfo.Node
                (slice.elems (NodeInfoList s))).
  unfold slice.len in Hlen. lia.
Qed.

(** X13.  [ListNodes] drops exactly the aggregates without descriptor: the
    number of nodes it returns and the number of aggregates of
    [NodeInfoList] without descriptor add up to the length of
    [NodeInfoList]. *)
Theorem ListNodes_count (s : Snapshot) :
  slice.len (ListNodes s)
  + length (filter (λ n, schedulernodeinfo.Node n = None)
              (slice.elems (NodeInfoList s)))
  = slice.len (NodeInfoList s).
Proof.
  unfold slice.len. rewrite ListNodes_elems.
  induction (slice.elems (NodeInfoList s)) as [|n l IH]; [done|].
  rewrite filter_cons. csimpl.
  destruct (schedulernodeinfo.Node n) as [nd|] eqn:Hn.
  - rewrite decide_False by done. simpl. lia.
  - rewrite decide_True by done. simpl. lia.
Qed.

(** X14.  [Get] never returns both an aggregate and an error: the error is
    nil exactly when the name is a key of the map, whenever the error is
    not nil the aggregate is nil, and an aggregate that is returned comes
    with a nil error and is the one the map stores for the name. *)
Theorem Get_error_iff_key (s : Snapshot) (nodeName : string) :
  let res := nodeInfoLister.Get (NodeInfos s) nodeName in
  (res.2 = None ↔ nodeName ∈ dom (NodeInfoMap s))
  ∧ (res.2 ≠ None → res.1 = None)
  ∧ (∀ v, res.1 = Some v →
          res.2 = None ∧ NodeInfoMap s !! nodeName = Some v).
Proof.
  intros res. unfold res, nodeInfoLister.Get; simpl.
  rewrite elem_of_dom.
  destruct (NodeInfoMap s !! nodeName) as [v|] eqn:Hv; simpl.
  - split_and!; [by split; eauto|done|by intros ? [= <-]].
  - split_and!; [|done|done].
    split; [done|]. by intros [? ?].
Qed.

(** ** The scenario of the design document, run *)

Example scenario_byName :
  NodeInfoMap scenario.snapshot
  = {["A" := scenario.infoA; "B" := scenario.infoB]}.
Proof. vm_compute. reflexivity. Qed.

Example scenario_ordered :
  slice.elems (NodeInfoList scenario.snapshot)
  = [scenario.infoB; scenario.infoA].
Proof. vm_compute. reflexivity. Qed.

Example scenario_affinityOnly :
  slice.elems (HavePodsWithAffinityNodeInfoList scenario.snapshot)
  = [scenario.infoB].
Proof. vm_compute. reflexivity. Qed.

Example scenario_list_appX :
  podLister.List (Pods scenario.snapshot) scenario.forwards
    scenario.backwards scenario.appX
  = (slice.mk [scenario.p1; scenario.p3] 3, None).
Proof. vm_compute. reflexivity. Qed.

Example scenario_get_A :
  nodeInfoLister.Get (NodeInfos scenario.snapshot) "A"
  = (Some scenario.infoA, None).
Proof. vm_compute. reflexivity. Qed.

Example scenario_get_C :
  nodeInfoLister.Get (NodeInfos scenario.snapshot) "C"
  = (None, Some (Errorf "nodeinfo not found for node name %q" ["C"])).
Proof. vm_compute. reflexivity. Qed.

Example scenario_later_ordered :
  slice.elems (NodeInfoList scenario.later)
  = [scenario.infoC; scenario.infoA; scenario.infoB].
Proof. vm_compute. reflexivity. Qed.

Example scenario_later_ListNodes :
  slice.elems (ListNodes scenario.later) = [scenario.A; scenario.B].
Proof. vm_compute. reflexivity. Qed.

(** ** The theorems at the scenario *)

Lemma NewSnapshot_bijection_witness :
  range_ok scenario.backwards
  ∧ dom (NodeInfoMap scenario.snapshot)
    = list_to_set
        (identities (slice.elems (NodeInfoList scenario.snapshot)))
  ∧ NoDup (identities (slice.elems (NodeInfoList scenario.snapshot)))
  ∧ (∀ n, n ∈ slice.elems (NodeInfoList scenario.snapshot)
          ↔ NodeInfoMap scenario.snapshot !! schedulernodeinfo.name n
            = Some n).
Proof.
  split; [apply range_ok_backwards|].
  apply (NewSnapshot_bijection schedulernodeinfo.Synthesize
           scenario.backwards scenario.pods scenario.nodes).
  apply range_ok_backwards.
Defined.

Lemma FilteredList_exact_witness :
  range_ok scenario.forwards ∧ range_ok scenario.backwards
  ∧ slice.elems
      (podLister.FilteredList (Pods scenario.snapshot) scenario.forwards
         scenario.backwards (λ pod, v1.Affinity pod) scenario.everything).1
    ≡ₚ filter (satisfies (λ pod, v1.Affinity pod) scenario.everything)
         (allPods scenario.snapshot).
Proof.
  split; [apply range_ok_forwards|]. split; [apply range_ok_backwards|].
  apply (FilteredList_exact scenario.snapshot scenario.forwards
           scenario.backwards (λ pod, v1.Affinity pod) scenario.everything
           range_ok_forwards range_ok_backwards).
Defined.

Lemma FilteredList_node_block_witness :
  scenario.forwards (NodeInfoMap scenario.later)
  = [("C", scenario.infoC)] ++ ("A", scenario.infoA)
      :: [("B", scenario.infoB)]
  ∧ (slice.elems
       (podLister.FilteredList (Pods scenario.later) scenario.backwards
          scenario.forwards (λ _, true) scenario.everything).1
     = passing (λ _, true) scenario.everything [("C", scenario.infoC)]
       ++ filter (satisfies (λ _, true) scenario.everything)
            (schedulernodeinfo.Pods scenario.infoA)
       ++ passing (λ _, true) scenario.everything [("B", scenario.infoB)]
     ∧ filter (satisfies (λ _, true) scenario.everything)
         (schedulernodeinfo.Pods scenario.infoA)
       `sublist_of` schedulernodeinfo.Pods scenario.infoA)
  ∧ passing (λ _, true) scenario.everything [("C", scenario.infoC)]
    = [scenario.p4]
  ∧ filter (satisfies (λ _, true) scenario.everything)
      (schedulernodeinfo.Pods scenario.infoA)
    = [scenario.p1; scenario.p3]
  ∧ passing (λ _, true) scenario.everything [("B", scenario.infoB)]
    = [scenario.p2].
Proof.
  assert (Hsplit : scenario.forwards (NodeInfoMap scenario.later)
                   = [("C", scenario.infoC)] ++ ("A", scenario.infoA)
                       :: [("B", scenario.infoB)])
    by (vm_compute; reflexivity).
  split; [exact Hsplit|]. split.
  - apply (FilteredList_node_block scenario.later scenario.backwards
             scenario.forwards (λ _, true) scenario.everything
             [("C", scenario.infoC)] [("B", scenario.infoB)]
             "A" scenario.infoA Hsplit).
  - split_and!; vm_compute; reflexivity.
Defined.

Lemma listings_total_witness :
  range_ok scenario.forwards ∧ range_ok scenario.backwards
  ∧ (podLister.List (Pods scenario.snapshot) scenario.forwards
       scenario.backwards scenario.appX).2 = None
  ∧ slice.elems
      (podLister.List
         (Pods (NewSnapshot schedulernodeinfo.Drop scenario.forwards [] []))
         scenario.forwards scenario.backwards scenario.appX).1 = [].
Proof.
  pose proof (listings_total scenario.snapshot schedulernodeinfo.Drop
                scenario.forwards scenario.forwards scenario.backwards
                (λ _, true) scenario.appX
                range_ok_forwards range_ok_backwards) as [Herr Hempty].
  split; [apply range_ok_forwards|]. split; [apply range_ok_backwards|].
  split; [apply Herr|]. apply Hempty. by right.
Defined.

Lemma Get_lookup_witness :
  NodeInfoMap scenario.snapshot !! "A" = Some scenario.infoA
  ∧ nodeInfoLister.Get (NodeInfos scenario.snapshot) "A"
    = (Some scenario.infoA, None)
  ∧ NodeInfoMap scenario.snapshot !! "C" = None
  ∧ nodeInfoLister.Get (NodeInfos scenario.snapshot) "C"
    = (None, Some (Errorf "nodeinfo not found for node name %q" ["C"])).
Proof.
  assert (HA : NodeInfoMap scenario.snapshot !! "A" = Some scenario.infoA)
    by (vm_compute; reflexivity).
  assert (HC : NodeInfoMap scenario.snapshot !! "C" = None)
    by (vm_compute; reflexivity).
  split; [exact HA|]. split.
  - exact (proj1 (Get_lookup scenario.snapshot "A") scenario.infoA HA).
  - split; [exact HC|].
    exact (proj1 (proj2 (Get_lookup scenario.snapshot "C")) HC).
Defined.

Lemma ListNodes_present_witness :
  slice.elems (NodeInfoList scenario.later)
  = [] ++ scenario.infoC :: [scenario.infoA; scenario.infoB]
  ∧ schedulernodeinfo.Node scenario.infoC = None
  ∧ slice.elems (ListNodes scenario.later)
    = omap schedulernodeinfo.Node []
      ++ omap schedulernodeinfo.Node [scenario.infoA; scenario.infoB].
Proof.
  assert (Hsplit : slice.elems (NodeInfoList scenario.later)
                   = [] ++ scenario.infoC :: [scenario.infoA; scenario.infoB])
    by (vm_compute; reflexivity).
  split; [exact Hsplit|]. split; [reflexivity|].
  exact (proj1 (proj2 (proj2 (ListNodes_present scenario.later)))
           [] scenario.infoC [scenario.infoA; scenario.infoB] Hsplit eq_refl).
Defined.

(** ** The further properties at the scenario *)

Lemma FilteredList_any_order_witness :
  range_ok scenario.forwards ∧ range_ok scenario.backwards
  ∧ (slice.elems
       (podLister.FilteredList (Pods scenario.snapshot) scenario.forwards
          scenario.forwards (λ _, true) scenario.everything).1
     ≡ₚ slice.elems
          (podLister.FilteredList (Pods scenario.snapshot)
             scenario.backwards scenario.backwards (λ _, true)
             scenario.everything).1
     ∧ slice.len
         (podLister.FilteredList (Pods scenario.snapshot) scenario.forwards
            scenario.forwards (λ _, true) scenario.everything).1
       = slice.len
           (podLister.FilteredList (Pods scenario.snapshot)
              scenario.backwards scenario.backwards (λ _, true)
              scenario.everything).1
     ∧ slice.cap
         (podLister.FilteredList (Pods scenario.snapshot) scenario.forwards
            scenario.forwards (λ _, true) scenario.everything).1
       = slice.cap
           (podLister.FilteredList (Pods scenario.snapshot)
              scenario.backwards scenario.backwards (λ _, true)
              scenario.everything).1)
  ∧ slice.elems
      (podLister.FilteredList (Pods scenario.snapshot) scenario.forwards
         scenario.forwards (λ _, true) scenario.everything).1
    = [scenario.p1; scenario.p3; scenario.p2]
  ∧ slice.elems
      (podLister.FilteredList (Pods scenario.snapshot) scenario.backwards
         scenario.backwards (λ _, true) scenario.everything).1
    = [scenario.p2; scenario.p1; scenario.p3].
Proof.
  split; [apply range_ok_forwards|]. split; [apply range_ok_backwards|].
  split.
  - apply (FilteredList_any_order scenario.snapshot
             scenario.forwards scenario.forwards
             scenario.backwards scenario.backwards
             (λ _, true) scenario.everything
             range_ok_forwards range_ok_forwards
             range_ok_backwards range_ok_backwards).
  - split; vm_compute; reflexivity.
Defined.

Lemma FilteredList_full_buffer_witness :
  range_ok scenario.forwards ∧ range_ok scenario.backwards
  ∧ (∀ k n pod, NodeInfoMap scenario.snapshot !! k = Some n →
                pod ∈ schedulernodeinfo.Pods n →
                satisfies (λ _, true) scenario.everything pod)
  ∧ slice.len
      (podLister.FilteredList (Pods scenario.snapshot) scenario.forwards
         scenario.backwards (λ _, true) scenario.everything).1
    = slice.cap
        (podLister.FilteredList (Pods scenario.snapshot) scenario.forwards
           scenario.backwards (λ _, true) scenario.everything).1.
Proof.
  assert (Hall : ∀ k n pod, NodeInfoMap scenario.snapshot !! k = Some n →
                   pod ∈ schedulernodeinfo.Pods n →
                   satisfies (λ _, true) scenario.everything pod)
    by (intros; split; reflexivity).
  split; [apply range_ok_forwards|]. split; [apply range_ok_backwards|].
  split; [exact Hall|].
  apply (FilteredList_full_buffer scenario.snapshot scenario.forwards
           scenario.backwards (λ _, true) scenario.everything
           range_ok_forwards range_ok_backwards Hall).
Defined.

Lemma FilteredList_monotone_witness :
  (∀ pod, satisfies (λ pod, v1.Affinity pod) scenario.everything pod →
          satisfies (λ _, true) scenario.everything pod)
  ∧ (slice.elems
       (podLister.FilteredList (Pods scenario.snapshot) scenario.forwards
          scenario.backwards (λ pod, v1.Affinity pod)
          scenario.everything).1
     = filter (satisfies (λ pod, v1.Affinity pod) scenario.everything)
         (slice.elems
            (podLister.FilteredList (Pods scenario.snapshot)
               scenario.backwards scenario.backwards (λ _, true)
               scenario.everything).1)
     ∧ slice.elems
         (podLister.FilteredList (Pods scenario.snapshot) scenario.forwards
            scenario.backwards (λ pod, v1.Affinity pod)
            scenario.everything).1
       `sublist_of`
       slice.elems
         (podLister.FilteredList (Pods scenario.snapshot)
            scenario.backwards scenario.backwards (λ _, true)
            scenario.everything).1)
  ∧ slice.elems
      (podLister.FilteredList (Pods scenario.snapshot) scenario.forwards
         scenario.backwards (λ pod, v1.Affinity pod)
         scenario.everything).1
    = [scenario.p2]
  ∧ slice.elems
      (podLister.FilteredList (Pods scenario.snapshot) scenario.backwards
         scenario.backwards (λ _, true) scenario.everything).1
    = [scenario.p2; scenario.p1; scenario.p3].
Proof.
  assert (Himp : ∀ pod,
            satisfies (λ pod, v1.Affinity pod) scenario.everything pod →
            satisfies (λ _, true) scenario.everything pod)
    by (intros pod [_ Hsel]; split; [reflexivity|exact Hsel]).
  split; [exact Himp|]. split.
  - apply (FilteredList_monotone scenario.snapshot scenario.forwards
             scenario.backwards scenario.backwards
             (λ pod, v1.Affinity pod) (λ _, true)
             scenario.everything scenario.everything Himp).
  - split; vm_compute; reflexivity.
Defined.

Lemma FilteredList_nil_iff_witness :
  range_ok scenario.backwards
  ∧ (slice.elems
       (podLister.FilteredList (Pods scenario.snapshot) scenario.forwards
          scenario.backwards (λ pod, v1.Affinity pod) scenario.appX).1
     = []
     ↔ ∀ k n pod, NodeInfoMap scenario.snapshot !! k = Some n →
                  pod ∈ schedulernodeinfo.Pods n →
                  ¬ satisfies (λ pod, v1.Affinity pod) scenario.appX pod).
Proof.
  split; [apply range_ok_backwards|].
  apply (FilteredList_nil_iff scenario.snapshot scenario.forwards
           scenario.backwards (λ pod, v1.Affinity pod) scenario.appX
           range_ok_backwards).
Defined.

Lemma NewSnapshot_lists_the_map_witness :
  range_ok scenario.backwards
  ∧ slice.len (NodeInfoList scenario.snapshot)
    = size (NodeInfoMap scenario.snapshot).
Proof.
  split; [apply range_ok_backwards|].
  apply (NewSnapshot_lists_the_map schedulernodeinfo.Synthesize
           scenario.backwards scenario.pods scenario.nodes
           range_ok_backwards).
Defined.

Lemma List_Get_agree_witness :
  range_ok scenario.backwards
  ∧ (scenario.infoA
       ∈ slice.elems (nodeInfoLister.List (NodeInfos scenario.snapshot)).1
     ↔ ∃ nodeName,
         nodeInfoLister.Get (NodeInfos scenario.snapshot) nodeName
         = (Some scenario.infoA, None)).
Proof.
  split; [apply range_ok_backwards|].
  apply (List_Get_agree schedulernodeinfo.Synthesize scenario.backwards
           scenario.pods scenario.nodes scenario.infoA range_ok_backwards).
Defined.

Lemma ListNodes_Get_agree_witness :
  range_ok scenario.forwards
  ∧ (scenario.A ∈ slice.elems (ListNodes scenario.later)
     ↔ ∃ nodeName v,
         nodeInfoLister.Get (NodeInfos scenario.later) nodeName
         = (Some v, None)
         ∧ schedulernodeinfo.Node v = Some scenario.A).
Proof.
  split; [apply range_ok_forwards|].
  apply (ListNodes_Get_agree schedulernodeinfo.Synthesize scenario.forwards
           (scenario.pods ++ [scenario.p4]) scenario.nodes scenario.A
           range_ok_forwards).
Defined.

Lemma pod_List_of_node_List_witness :
  range_ok scenario.backwards ∧ range_ok scenario.forwards
  ∧ slice.elems
      (podLister.List (Pods scenario.snapshot) scenario.forwards
         scenario.forwards scenario.appX).1
    ≡ₚ filter
         (λ pod, labels.Matches scenario.appX (v1.Labels pod) = true)
         (slice.elems (nodeInfoLister.List (NodeInfos scenario.snapshot)).1
            ≫= schedulernodeinfo.Pods).
Proof.
  split; [apply range_ok_backwards|]. split; [apply range_ok_forwards|].
  apply (pod_List_of_node_List schedulernodeinfo.Synthesize
           scenario.backwards scenario.forwards scenario.forwards
           scenario.pods scenario.nodes scenario.appX
           range_ok_backwards range_ok_forwards).
Defined.

Lemma NewSnapshot_presized_witness :
  range_ok scenario.backwards
  ∧ size (schedulernodeinfo.CreateNodeNameToInfoMap
            schedulernodeinfo.Synthesize scenario.pods scenario.nodes)
    ≤ length scenario.nodes
  ∧ slice.cap (NodeInfoList scenario.snapshot) = length scenario.nodes
  ∧ slice.cap (HavePodsWithAffinityNodeInfoList scenario.snapshot)
    = length scenario.nodes.
Proof.
  assert (Hsize : size (schedulernodeinfo.CreateNodeNameToInfoMap
                          schedulernodeinfo.Synthesize
                          scenario.pods scenario.nodes)
                  ≤ length scenario.nodes)
    by (vm_compute; lia).
  split; [apply range_ok_backwards|]. split; [exact Hsize|].
  apply (NewSnapshot_presized schedulernodeinfo.Synthesize
           scenario.backwards scenario.pods scenario.nodes
           range_ok_backwards Hsize).
Defined.

Lemma ListNodes_presized_witness :
  slice.len (NodeInfoList scenario.later) ≤ size (NodeInfoMap scenario.later)
  ∧ slice.cap (ListNodes scenario.later) = size (NodeInfoMap scenario.later)
  ∧ slice.len (ListNodes scenario.later)
    ≤ slice.cap (ListNodes scenario.later).
Proof.
  assert (Hlen : slice.len (NodeInfoList scenario.later)
                 ≤ size (NodeInfoMap scenario.later))
    by (vm_compute; lia).
  split; [exact Hlen|].
  apply (ListNodes_presized scenario.later Hlen).
Defined.
